(** * A shallow embedding of the chat archive of [prj1-sol]

    The development follows [chat-io.c] (the command loop [chat_io] and its
    string helpers) and [chat.c] (the message list and
    [display_chat_messages]).  C strings are [string]s, a line buffer is a
    [string] in which the terminating NUL bytes are written out, the linked
    list rooted at [head] is a [list ChatMsg] with the most recent message
    first, and the two streams [out] and [err] are the texts written to them
    so far. *)

From Stdlib Require Import Strings.String Strings.Ascii Lists.List.
From Stdlib Require Import ZArith.ZArith NArith.NArith Bool.Bool Arith.PeanoNat.
From Stdlib Require Import micromega.Lia.
Import ListNotations.

Open Scope string_scope.

(** ** Characters, as [<ctype.h>] classifies them in the C locale *)

Module Ctype.

Definition NUL : ascii := "000"%char.
Definition LF : ascii := "010"%char.

Definition code (c : ascii) : N := N_of_ascii c.

Definition between (lo hi : N) (c : ascii) : bool :=
  ((lo <=? code c) && (code c <=? hi))%N.

(** space, and the five control characters from tab to carriage return *)
Definition isspace (c : ascii) : bool :=
  ((code c =? 32) || between 9 13 c)%N.

Definition isupper (c : ascii) : bool := between 65 90 c.
Definition islower (c : ascii) : bool := between 97 122 c.
Definition isalpha (c : ascii) : bool := isupper c || islower c.
Definition isdigit (c : ascii) : bool := between 48 57 c.

Definition tolower (c : ascii) : ascii :=
  if isupper c then ascii_of_N (code c + 32) else c.

Definition is_char (x c : ascii) : bool := Ascii.eqb c x.

End Ctype.
Import Ctype.

(** ** Buffers and C strings *)

Module CString.

(** [drop n s] is the pointer [s + n]. *)
Fixpoint drop (n : nat) (s : string) : string :=
  match n, s with
  | O, _ => s
  | S n', String _ s' => drop n' s'
  | S _, EmptyString => EmptyString
  end.

Fixpoint take (n : nat) (s : string) : string :=
  match n, s with
  | S n', String c s' => String c (take n' s')
  | _, _ => EmptyString
  end.

(** [poke i c s] is the assignment [s[i] = c]; nothing is written outside
    the buffer. *)
Fixpoint poke (i : nat) (c : ascii) (s : string) : string :=
  match s with
  | EmptyString => EmptyString
  | String d s' =>
      match i with
      | O => String c s'
      | S i' => String d (poke i' c s')
      end
  end.

(** The C string a buffer holds: its bytes before the first NUL. *)
Fixpoint cstr (s : string) : string :=
  match s with
  | EmptyString => EmptyString
  | String c s' => if is_char NUL c then EmptyString else String c (cstr s')
  end.

Definition strlen (s : string) : nat := String.length (cstr s).

(** a buffer is terminated when one of its bytes is NUL *)
Fixpoint terminated (s : string) : bool :=
  match s with
  | EmptyString => false
  | String c s' => is_char NUL c || terminated s'
  end.

(** [strcmp(a, b) == 0] on two C strings *)
Definition strcmp_eq (a b : string) : bool := String.eqb a b.

(** [memmove(str, str + start, n)] *)
Definition memmove_front (str : string) (start n : nat) : string :=
  take n (drop start str) ++ drop n str.

(** first character of a C string; NUL when it is empty *)
Definition first_char (s : string) : ascii :=
  match s with
  | EmptyString => NUL
  | String c _ => c
  end.

(** The words successive calls of [strtok(_, " ")] return on a C string:
    the maximal runs without a space character.  [cur] is the word being
    read. *)
Fixpoint strtok_from (s : string) (cur : string) : list string :=
  match s with
  | EmptyString =>
      match cur with EmptyString => [] | _ => [cur] end
  | String c s' =>
      if is_char " "%char c
      then match cur with
           | EmptyString => strtok_from s' EmptyString
           | _ => cur :: strtok_from s' EmptyString
           end
      else strtok_from s' (cur ++ String c EmptyString)
  end.

Definition strtok_words (s : string) : list string := strtok_from s EmptyString.

Fixpoint to_lowercase (str : string) : string :=
  match str with
  | EmptyString => EmptyString
  | String c s' => String (tolower c) (to_lowercase s')
  end.

End CString.
Import CString.

(** ** [trim_whitespace] *)

(** number of leading white-space characters: the loop [start++] *)
Fixpoint skip_space (s : string) : nat :=
  match s with
  | String c s' => if isspace c then S (skip_space s') else O
  | EmptyString => O
  end.

(** the loop that moves [end] back while it is after [start] and on a
    white-space character; [e] is the offset of [end] from [start] *)
Fixpoint back_over_space (s : string) (e : nat) : nat :=
  match e with
  | O => O
  | S e' =>
      match String.get e s with
      | Some c => if isspace c then back_over_space s e' else e
      | None => e
      end
  end.

Definition trim_whitespace (str : string) : string :=
  let start := skip_space str in
  match cstr (drop start str) with
  | EmptyString => poke 0 NUL str
  | tail =>
      let e := back_over_space tail (String.length tail - 1) in
      let str1 := poke (start + e + 1) NUL str in
      memmove_front str1 start (strlen (drop start str1) + 1)
  end.

(** ** [getline] *)

(** The lines successive calls of [getline] return on a stream: each one
    runs up to and including its newline; the last one may lack it. *)
Fixpoint read_lines (input : string) : list string :=
  match input with
  | EmptyString => []
  | String c rest =>
      if is_char LF c then String c EmptyString :: read_lines rest
      else match read_lines rest with
           | [] => [String c EmptyString]
           | l :: ls => String c l :: ls
           end
  end.

(** the buffer [getline] leaves: the [read] bytes of the line and a NUL *)
Definition line_buffer (raw : string) : string := raw ++ String NUL EmptyString.

(** [if (line[read - 1] == '\n') line[read - 1] = '\0'] *)
Definition strip_newline (raw : string) : string :=
  let read := String.length raw in
  let line := line_buffer raw in
  match String.get (read - 1) line with
  | Some c => if is_char LF c then poke (read - 1) NUL line else line
  | None => line
  end.

(** the buffer [line] at the point where [chat_io] looks at [line[0]] *)
Definition command_line (raw : string) : string :=
  trim_whitespace (strip_newline raw).

(** ** [atoi] and the conversion to [size_t] *)

Module Num.

Definition LONG_MAX : Z := 2 ^ 63 - 1.
Definition LONG_MIN : Z := - 2 ^ 63.

(** the decimal digits at the front of [s], accumulated into [acc] *)
Fixpoint digits_value (s : string) (acc : Z) : Z :=
  match s with
  | String c s' =>
      if isdigit c
      then digits_value s' (10 * acc + (Z.of_N (code c) - 48))
      else acc
  | EmptyString => acc
  end.

Definition signed_value (s : string) : Z :=
  match s with
  | String c s' =>
      if is_char "-"%char c then - digits_value s' 0
      else if is_char "+"%char c then digits_value s' 0
      else digits_value s 0
  | EmptyString => 0
  end.

(** [strtol(s, NULL, 10)]: white space, a sign, digits; the value is
    clamped to the range of [long] *)
Definition strtol (s : string) : Z :=
  Z.max LONG_MIN (Z.min LONG_MAX (signed_value (drop (skip_space s) s))).

(** conversion to [int]: the low 32 bits, read as a signed number *)
Definition to_int (z : Z) : Z := (z + 2 ^ 31) mod 2 ^ 32 - 2 ^ 31.

(** [atoi(s)] is [(int) strtol(s, NULL, 10)] *)
Definition atoi (s : string) : Z := to_int (strtol s).

(** conversion to the 64-bit unsigned [size_t] *)
Definition to_size_t (z : Z) : Z := z mod 2 ^ 64.

End Num.
Import Num.

(** ** The message list of [chat.c] *)

Module Msg.

(** [struct ChatMsg]; [num_topics] is the length of [topics] *)
Record ChatMsg : Type := mkChatMsg {
  user : string;
  room : string;
  topics : list string;
  message : string
}.

Definition num_topics (m : ChatMsg) : nat := List.length (topics m).

End Msg.
Definition ChatMsg : Type := Msg.ChatMsg.

Definition nl : string := String LF EmptyString.

(** [fprintf(stream, "%s", text)] on the text written to a stream so far *)
Definition fprintf (stream text : string) : string := stream ++ text.

(** [create_chat_message]: each string is copied; no allocation fails *)
Definition create_chat_message (user room message : string)
    (topics : list string) : ChatMsg :=
  Msg.mkChatMsg user room topics message.

(** [add_chat_msg]: the new node becomes [head] *)
Definition add_chat_msg (msg : ChatMsg) (head : list ChatMsg) : list ChatMsg :=
  msg :: head.

(** the loop over [j] of [message_matches_topics] and [is_valid_topics]:
    is [topic] one of the topics of the message ? *)
Fixpoint topic_found (msg_topics : list string) (topic : string) : bool :=
  match msg_topics with
  | [] => false
  | t :: rest => if strcmp_eq t topic then true else topic_found rest topic
  end.

(** the loop over [i] of [message_matches_topics] *)
Fixpoint each_topic_found (msg_topics topics : list string) : bool :=
  match topics with
  | [] => true
  | t :: rest =>
      if topic_found msg_topics t then each_topic_found msg_topics rest
      else false
  end.

Definition message_matches_topics (chat_msg : ChatMsg) (topics : list string)
    : bool :=
  match List.length topics with
  | O => true
  | _ => each_topic_found (Msg.topics chat_msg) topics
  end.

Fixpoint is_valid_room (room : string) (current : list ChatMsg) : bool :=
  match current with
  | [] => false
  | chat_msg :: next =>
      if strcmp_eq room (Msg.room chat_msg) then true
      else is_valid_room room next
  end.

(** the loop over the list of [is_valid_topics], for one topic *)
Fixpoint topic_in_list (topic : string) (current : list ChatMsg) : bool :=
  match current with
  | [] => false
  | chat_msg :: next =>
      if topic_found (Msg.topics chat_msg) topic then true
      else topic_in_list topic next
  end.

Fixpoint each_topic_in_list (topics : list string) (head : list ChatMsg) : bool :=
  match topics with
  | [] => true
  | t :: rest =>
      if topic_in_list t head then each_topic_in_list rest head else false
  end.

Definition is_valid_topics (topics : list string) (head : list ChatMsg) : bool :=
  match List.length topics with
  | O => true
  | _ => each_topic_in_list topics head
  end.

(** the loop printing the topics of a message: the topic at index [i], then
    a space when [i + 1 < num_topics] *)
Fixpoint print_topics (i num_topics : nat) (topics : list string)
    (err : string) : string :=
  match topics with
  | [] => err
  | t :: rest =>
      let err := fprintf err t in
      let err := if (i + 1 <? num_topics)%nat then fprintf err " " else err in
      print_topics (i + 1)%nat num_topics rest err
  end.

(** what the body of the [if] in [display_chat_messages] writes up to and
    including the newline that ends the header *)
Definition print_header (chat_msg : ChatMsg) (err : string) : string :=
  let err :=
    fprintf err (Msg.user chat_msg ++ " " ++ Msg.room chat_msg ++ " ") in
  let err :=
    print_topics 0 (Msg.num_topics chat_msg) (Msg.topics chat_msg) err in
  fprintf err nl.

Definition print_message (chat_msg : ChatMsg) (err : string) : string :=
  fprintf (print_header chat_msg err) (Msg.message chat_msg).

(** the [while] loop of [display_chat_messages]; the result is the text on
    [err] and the flag [found] *)
Fixpoint display_loop (count : Z) (room : string) (topics : list string)
    (current : list ChatMsg) (current_count : Z) (found : bool)
    (err : string) : string * bool :=
  match current with
  | [] => (err, found)
  | chat_msg :: next =>
      if (current_count <? count)%Z then
        if strcmp_eq room (Msg.room chat_msg)
           && message_matches_topics chat_msg topics
        then display_loop count room topics next (current_count + 1)%Z true
               (print_message chat_msg err)
        else display_loop count room topics next current_count found err
      else (err, found)
  end.

Definition display_chat_messages (count : Z) (room : string)
    (topics : list string) (err : string) (head : list ChatMsg) : string :=
  let '(err, found) := display_loop count room topics head 0%Z false err in
  let err :=
    if negb found then
      if negb (is_valid_room room head) then fprintf err ("BAD_ROOM" ++ nl)
      else err
    else err in
  if negb found && (0 <? List.length topics)%nat then
    if negb (is_valid_topics topics head) then fprintf err ("BAD_TOPIC" ++ nl)
    else err
  else err.

(** ** The command loop of [chat-io.c] *)

Module St.

(** the message list [head] and the text written to [out] and [err] *)
Record state : Type := mkState {
  head : list ChatMsg;
  out : string;
  err : string
}.

Definition init : state := mkState [] EmptyString EmptyString.

Definition write_err (text : string) (st : state) : state :=
  mkState (head st) (out st) (fprintf (err st) text).

Definition set_head (h : list ChatMsg) (st : state) : state :=
  mkState h (out st) (err st).

End St.
Definition state : Type := St.state.

(** the loop [while (token && token[0] == '#')] of both commands: each topic
    word is copied and lower-cased; the words left over come back too *)
Fixpoint collect_topics (tokens topics : list string)
    : list string * list string :=
  match tokens with
  | token :: rest =>
      if is_char "#"%char (first_char token)
      then collect_topics rest (topics ++ [to_lowercase token])
      else (topics, tokens)
  | [] => (topics, [])
  end.

(** what the command line of an ADD is parsed to *)
Inductive add_header : Type :=
| AddError (text : string)
| AddHeader (user room : string) (topics : list string).

(** the ADD branch up to the loop that collects the message; [line] is the
    buffer, [line + 1] the text [strtok] splits *)
Definition parse_add (line : string) : add_header :=
  match strtok_words (cstr (drop 1 line)) with
  | user :: tokens =>
      if is_char "@"%char (first_char user) then
        match tokens with
        | room :: tokens =>
            if isalpha (first_char room) then
              match tokens with
              | token :: _ =>
                  if is_char "#"%char (first_char token)
                  then AddHeader user room (fst (collect_topics tokens []))
                  else AddError ("BAD_TOPIC" ++ nl)
              | [] => AddError ("BAD_TOPIC" ++ nl)
              end
            else AddError ("BAD_ROOM" ++ nl)
        | [] => AddError ("BAD_ROOM" ++ nl)
        end
      else AddError ("BAD_USER" ++ nl)
  | [] => AddError ("BAD_USER" ++ nl)
  end.

(** [concatenate_message]: [message] is [None] for the NULL pointer; the
    line is appended as the C string it is *)
Definition concatenate_message (message : option string) (line : string)
    : option string :=
  match message with
  | Some text => Some (text ++ cstr line)
  | None => Some (cstr line)
  end.

(** the statements after the loop that collects the message *)
Definition store_message (user room : string) (topics : list string)
    (message : option string) (st : state) : state :=
  match message with
  | Some text =>
      St.set_head
        (add_chat_msg (create_chat_message user room text topics) (St.head st))
        st
  | None => St.write_err ("NO_MSG" ++ nl) st
  end.

(** what the command line of a QUERY is parsed to *)
Inductive query_header : Type :=
| QueryError (text : string)
| QueryHeader (count : Z) (room : string) (topics : list string).

(** the optional COUNT word: [count] keeps its default 1 unless the word
    starts with a digit; the test [count < 0] is the one of the code, on a
    [size_t] *)
Definition parse_count (tokens : list string) : string + Z * list string :=
  match tokens with
  | token :: rest =>
      if isdigit (first_char token) then
        let count := to_size_t (atoi token) in
        if (count <? 0)%Z then inl ("BAD_COUNT" ++ nl) else inr (count, rest)
      else inr (1%Z, tokens)
  | [] => inr (1%Z, tokens)
  end.

(** the QUERY branch, from the first [strtok] result on, up to the call of
    [display_chat_messages] *)
Definition parse_query (tokens : list string) : query_header :=
  match tokens with
  | room :: tokens =>
      if isalpha (first_char room) then
        match parse_count tokens with
        | inl text => QueryError text
        | inr (count, tokens) =>
            match tokens with
            | token :: _ =>
                if is_char "#"%char (first_char token)
                then QueryHeader count room (fst (collect_topics tokens []))
                else QueryError ("BAD_TOPIC" ++ nl)
            | [] => QueryHeader count room []
            end
        end
      else QueryError ("BAD_ROOM" ++ nl)
  | [] => QueryError ("BAD_ROOM" ++ nl)
  end.

(** the words [strtok(line + 2, " ")] and its successors return.  [line + 2]
    is inside the buffer [getline] filled when the buffer has more than two
    bytes; otherwise the QUERY branch reads outside it, and the result is
    [None]. *)
Definition query_words (line : string) : option (list string) :=
  if (2 <? String.length line)%nat
  then Some (strtok_words (cstr (drop 2 line)))
  else None.

Definition run_query (tokens : list string) (st : state) : state :=
  match parse_query tokens with
  | QueryError text => St.write_err text st
  | QueryHeader count room topics =>
      St.mkState (St.head st) (St.out st)
        (display_chat_messages count room topics (St.err st) (St.head st))
  end.

(** The outer loop of [chat_io] over the lines [getline] returns, and the
    inner loop that collects the lines of a message.  Both read from the
    same stream.  The result is [None] when a QUERY line made the code read
    outside the line buffer. *)
Fixpoint chat_io_loop (lines : list string) (st : state) : option state :=
  match lines with
  | [] => Some st
  | raw :: rest =>
      let line := command_line raw in
      let c := first_char line in
      if is_char "+"%char c then
        match parse_add line with
        | AddError text => chat_io_loop rest (St.write_err text st)
        | AddHeader user room topics =>
            message_loop rest user room topics None st
        end
      else if is_char "?"%char c then
        match query_words line with
        | Some tokens => chat_io_loop rest (run_query tokens st)
        | None => None
        end
      else if negb (is_char "."%char c) then
        chat_io_loop rest (St.write_err ("BAD_COMMAND" ++ nl) st)
      else chat_io_loop rest st
  end
with message_loop (lines : list string) (user room : string)
    (topics : list string) (message : option string) (st : state)
    : option state :=
  match lines with
  | [] => Some (store_message user room topics message st)
  | raw :: rest =>
      if is_char "."%char (first_char raw)
      then chat_io_loop rest (store_message user room topics message st)
      else message_loop rest user room topics
             (concatenate_message message (line_buffer raw)) st
  end.

Definition chat_io (input : string) : option state :=
  chat_io_loop (read_lines input) St.init.

(** a stream made of the given lines, each one ended by a newline *)
Fixpoint unlines (ls : list string) : string :=
  match ls with
  | [] => EmptyString
  | l :: rest => l ++ nl ++ unlines rest
  end.

(** ** What a QUERY is to return, in the words of the specification *)

(** a message matches when its room is the queried one and each requested
    topic is among its topics *)
Definition spec_matches (room : string) (topics : list string) (m : ChatMsg)
    : bool :=
  String.eqb room (Msg.room m)
  && forallb (fun t => existsb (fun u => String.eqb u t) (Msg.topics m)) topics.

(** the first [limit] matches met from the most recent message to the
    oldest, in that order *)
Definition spec_query (head : list ChatMsg) (room : string)
    (topics : list string) (limit : nat) : list ChatMsg :=
  firstn limit (filter (spec_matches room topics) head).

(** the header line of a message: user, room and the topics, with one space
    after the user, one after the room and one between two topics *)
Definition spec_header (m : ChatMsg) : string :=
  Msg.user m ++ " " ++ Msg.room m ++ " " ++ String.concat " " (Msg.topics m)
  ++ nl.

(** the text of a sequence of messages, each header followed by its body *)
Fixpoint spec_print (ms : list ChatMsg) : string :=
  match ms with
  | [] => EmptyString
  | m :: rest => spec_header m ++ Msg.message m ++ spec_print rest
  end.

(** what [display_chat_messages] writes after the loop when nothing was
    found: the two tests on the room and on the topics, one after the other *)
Definition rejection_text (room : string) (topics : list string)
    (head : list ChatMsg) : string :=
  (if is_valid_room room head then EmptyString else "BAD_ROOM" ++ nl)
  ++ (if (0 <? List.length topics)%nat && negb (is_valid_topics topics head)
      then "BAD_TOPIC" ++ nl else EmptyString).

(** three messages added to room [r] one after the other; the most recent
    one is first in the list *)
Definition three_messages : list ChatMsg :=
  [ Msg.mkChatMsg "@cy" "r" ["#t"] ("third" ++ nl);
    Msg.mkChatMsg "@bo" "r" ["#t"; "#u"] ("second" ++ nl);
    Msg.mkChatMsg "@al" "r" ["#t"] ("first" ++ nl) ].

(** ** Predicates on words and messages *)

(** every character of [s] satisfies [p] *)
Fixpoint all_chars (p : ascii -> bool) (s : string) : bool :=
  match s with
  | EmptyString => true
  | String c s' => p c && all_chars p s'
  end.

(** the last character of a string; NUL when it is empty *)
Fixpoint last_char (s : string) : ascii :=
  match s with
  | EmptyString => NUL
  | String c EmptyString => c
  | String _ s' => last_char s'
  end.

Definition not_space (c : ascii) : bool := negb (is_char " "%char c).

Definition no_NUL (l : string) : bool :=
  all_chars (fun c => negb (is_char NUL c)) l.

(** a line that goes into a message: it does not start with a dot, and it
    holds no NUL byte, so that it is appended whole *)
Definition body_line (l : string) : Prop :=
  is_char "."%char (first_char l) = false /\ no_NUL l = true.


Definition lower_case (s : string) : bool :=
  all_chars (fun c => negb (isupper c)) s.

(** a word as [strtok] cuts it: not empty, without a space *)
Definition is_word (s : string) : bool :=
  negb (String.eqb s EmptyString)
  && all_chars (fun c => negb (is_char " "%char c)) s.

(** the shape of a message the ADD branch lets in: a user word starting
    with [@], a room word starting with a letter, one topic at least, each
    topic a lower-case word starting with [#] *)
Definition topic_shape (t : string) : bool :=
  is_char "#"%char (first_char t) && lower_case t && is_word t.

Definition message_shape (m : ChatMsg) : bool :=
  is_char "@"%char (first_char (Msg.user m)) && is_word (Msg.user m)
  && (isalpha (first_char (Msg.room m)) && is_word (Msg.room m))
  && (negb (Nat.eqb (List.length (Msg.topics m)) 0)
      && forallb topic_shape (Msg.topics m)).

(** * Properties *)

(** ** Strings *)

Section StringFacts.

Lemma append_nil_r (s : string) : s ++ "" = s.
Proof. induction s as [|c s IH]; simpl; [reflexivity | now rewrite IH]. Qed.

Lemma append_assoc (s t u : string) : (s ++ t) ++ u = s ++ t ++ u.
Proof. induction s as [|c s IH]; simpl; [reflexivity | now rewrite IH]. Qed.

Lemma length_append (s t : string) :
  String.length (s ++ t) = (String.length s + String.length t)%nat.
Proof. induction s as [|c s IH]; simpl; [reflexivity | now rewrite IH]. Qed.

Lemma fprintf_assoc (stream a b : string) :
  fprintf (fprintf stream a) b = fprintf stream (a ++ b).
Proof. unfold fprintf. apply append_assoc. Qed.

End StringFacts.

(** ** Printing a message *)

Section Printing.

(** The loop over the topics writes them with one space between two. *)
Lemma print_topics_concat (topics : list string) :
  forall i num_topics err,
    num_topics = (i + List.length topics)%nat ->
    print_topics i num_topics topics err
    = err ++ String.concat " " topics.
Proof.
  induction topics as [|t rest IH]; intros i n err Hn; simpl.
  - now rewrite append_nil_r.
  - destruct rest as [|t' rest'].
    + simpl in Hn. replace (i + 1 <? n)%nat with false
        by (symmetry; apply Nat.ltb_ge; lia).
      reflexivity.
    + replace (i + 1 <? n)%nat with true
        by (symmetry; apply Nat.ltb_lt; simpl in Hn; lia).
      rewrite IH by (simpl in *; lia).
      unfold fprintf. now rewrite !append_assoc.
Qed.

Lemma print_header_spec (m : ChatMsg) (err : string) :
  print_header m err = err ++ spec_header m.
Proof.
  unfold print_header, spec_header, Msg.num_topics.
  rewrite print_topics_concat by reflexivity.
  unfold fprintf. now rewrite !append_assoc.
Qed.

Lemma print_message_spec (m : ChatMsg) (err : string) :
  print_message m err = err ++ spec_header m ++ Msg.message m.
Proof.
  unfold print_message. rewrite print_header_spec.
  unfold fprintf. now rewrite append_assoc.
Qed.

End Printing.

(** ** The scan of the message list *)

Section Scan.

Variables (room : string) (topics : list string).

Lemma topic_found_existsb (msg_topics : list string) (t : string) :
  topic_found msg_topics t = existsb (fun u => String.eqb u t) msg_topics.
Proof.
  induction msg_topics as [|u rest IH]; simpl; [reflexivity|].
  unfold strcmp_eq. now destruct (String.eqb u t).
Qed.

Lemma each_topic_found_forallb (msg_topics ts : list string) :
  each_topic_found msg_topics ts
  = forallb (fun t => existsb (fun u => String.eqb u t) msg_topics) ts.
Proof.
  induction ts as [|t rest IH]; simpl; [reflexivity|].
  rewrite topic_found_existsb, IH.
  now destruct (existsb _ msg_topics).
Qed.

(** The test of the loop is the matching rule of the specification. *)
Lemma loop_test_spec (m : ChatMsg) :
  strcmp_eq room (Msg.room m) && message_matches_topics m topics
  = spec_matches room topics m.
Proof.
  unfold spec_matches, strcmp_eq, message_matches_topics.
  f_equal. destruct topics as [|t ts]; [reflexivity|].
  apply each_topic_found_forallb.
Qed.

(** What the loop writes and the flag it leaves, from any point of the
    scan: [count - current_count] more matches are printed at most. *)
Lemma display_loop_spec (count : Z) (current : list ChatMsg) :
  forall current_count found err,
    display_loop count room topics current current_count found err
    = (err ++ spec_print
                (spec_query current room topics
                   (Z.to_nat (count - current_count))),
       found
       || negb (Nat.eqb
                  (List.length
                     (spec_query current room topics
                        (Z.to_nat (count - current_count)))) 0)).
Proof.
  unfold spec_query.
  induction current as [|m next IH]; intros cc found err; simpl.
  - rewrite firstn_nil. simpl.
    now rewrite append_nil_r, orb_false_r.
  - destruct (Z.ltb_spec cc count) as [Hlt|Hge].
    + rewrite loop_test_spec.
      destruct (spec_matches room topics m) eqn:Hm.
      * rewrite IH, print_message_spec.
        replace (Z.to_nat (count - cc))
          with (S (Z.to_nat (count - (cc + 1)))) by lia.
        simpl. rewrite !append_assoc, orb_true_r. reflexivity.
      * apply IH.
    + replace (Z.to_nat (count - cc)) with O by lia.
      simpl. now rewrite append_nil_r, orb_false_r.
Qed.

End Scan.

(** ** Line buffers *)

Section Buffers.

Lemma isspace_not_NUL (c : ascii) : isspace c = true -> is_char NUL c = false.
Proof.
  unfold is_char. destruct (Ascii.eqb_spec c NUL) as [->|]; [|reflexivity].
  vm_compute. intro H; discriminate H.
Qed.

Lemma line_buffer_terminated (raw : string) :
  terminated (line_buffer raw) = true.
Proof.
  unfold line_buffer.
  induction raw as [|c raw IH]; simpl; [reflexivity|].
  rewrite IH. apply orb_true_r.
Qed.

Lemma poke_NUL_terminated (s : string) :
  forall i, terminated s = true -> terminated (poke i NUL s) = true.
Proof.
  induction s as [|c s IH]; intros i H; simpl in *; [discriminate|].
  destruct i as [|i]; simpl; [reflexivity|].
  destruct (is_char NUL c); [reflexivity|]. simpl in *. now apply IH.
Qed.

Lemma strip_newline_terminated (raw : string) :
  terminated (strip_newline raw) = true.
Proof.
  unfold strip_newline.
  destruct (String.get _ _) as [c|]; [destruct (is_char LF c)|];
    auto using poke_NUL_terminated, line_buffer_terminated.
Qed.

Lemma drop_skip_space_terminated (s : string) :
  terminated s = true -> terminated (drop (skip_space s) s) = true.
Proof.
  induction s as [|c s IH]; simpl; [discriminate|].
  destruct (isspace c) eqn:Hc; simpl; [|trivial].
  rewrite (isspace_not_NUL c Hc). simpl. exact IH.
Qed.

Lemma drop_poke (c : ascii) (n k : nat) :
  forall s, drop n (poke (n + k) c s) = poke k c (drop n s).
Proof.
  induction n as [|n IH]; intros s; simpl; [reflexivity|].
  destruct s as [|d s]; simpl; [now destruct k | apply IH].
Qed.

(** The bytes [memmove] copies, a C string and its NUL, end in a NUL. *)
Lemma take_strlen_terminated (x y : string) :
  terminated x = true -> terminated (take (strlen x + 1) x ++ y) = true.
Proof.
  unfold strlen.
  induction x as [|c x IH]; simpl; [discriminate|].
  destruct (is_char NUL c) eqn:Hc; simpl; rewrite Hc; simpl; auto.
Qed.

Lemma trim_whitespace_terminated (str : string) :
  terminated str = true -> terminated (trim_whitespace str) = true.
Proof.
  intro H. unfold trim_whitespace.
  destruct (cstr (drop (skip_space str) str)) as [|t tail] eqn:Hc.
  - destruct str; [discriminate | reflexivity].
  - unfold memmove_front.
    apply take_strlen_terminated.
    rewrite <- Nat.add_assoc, drop_poke.
    apply poke_NUL_terminated, drop_skip_space_terminated, H.
Qed.

Lemma command_line_terminated (raw : string) :
  terminated (command_line raw) = true.
Proof.
  apply trim_whitespace_terminated, strip_newline_terminated.
Qed.

(** When the C string of a buffer has two characters or more, the pointer
    two bytes on is inside the buffer and holds the rest of that string. *)
Lemma cstr_two (line rest : string) (a c : ascii) :
  terminated line = true ->
  cstr line = String a (String c rest) ->
  (2 < String.length line)%nat /\ cstr (drop 2 line) = rest.
Proof.
  intros Ht Hc.
  destruct line as [|a' [|c' [|d line]]]; simpl in *;
    try discriminate;
    destruct (is_char NUL a'); try discriminate; simpl in *;
    try discriminate;
    destruct (is_char NUL c'); try discriminate; simpl in *;
    try discriminate.
  injection Hc as _ _ Hr. split; [lia | exact Hr].
Qed.

End Buffers.

(** ** [display_chat_messages] *)

Section Display.

Variables (room : string) (topics : list string).

(** The whole text of a QUERY: the matches, most recent first, and after
    them the rejections, which are written only when nothing matched. *)
Lemma display_chat_messages_spec (count : Z) (err : string)
    (head : list ChatMsg) :
  display_chat_messages count room topics err head
  = err
    ++ spec_print (spec_query head room topics (Z.to_nat count))
    ++ match spec_query head room topics (Z.to_nat count) with
       | [] => rejection_text room topics head
       | _ :: _ => EmptyString
       end.
Proof.
  unfold display_chat_messages. rewrite display_loop_spec.
  rewrite Z.sub_0_r.
  destruct (spec_query head room topics (Z.to_nat count)) as [|m ms]; simpl.
  - unfold rejection_text, fprintf.
    destruct (is_valid_room room head);
      destruct (0 <? List.length topics)%nat;
      destruct (is_valid_topics topics head); simpl;
      rewrite ?append_nil_r, ?append_assoc; reflexivity.
  - now rewrite append_nil_r.
Qed.

Lemma In_firstn {A : Type} (x : A) (l : list A) :
  forall n, In x (firstn n l) -> In x l.
Proof.
  induction l as [|y l IH]; intros [|n] H; simpl in *; try contradiction.
  destruct H as [->|H]; [now left | right; eauto].
Qed.

Lemma spec_matches_iff (m : ChatMsg) :
  spec_matches room topics m = true
  <-> Msg.room m = room /\ forall t, In t topics -> In t (Msg.topics m).
Proof.
  unfold spec_matches.
  rewrite andb_true_iff, String.eqb_eq, forallb_forall.
  split; intros [Hr Ht]; (split; [now symmetry|]); intros t Hin.
  - apply Ht, existsb_exists in Hin as [u [Hu Heq]].
    apply String.eqb_eq in Heq. now subst.
  - apply existsb_exists. exists t. split; [now apply Ht|].
    apply String.eqb_refl.
Qed.

End Display.

(** * The claims *)

(** C4.  A QUERY whose room and topics are known to the store writes
    exactly the first [count] messages met from the most recent to the
    oldest that are in the queried room and carry every requested topic,
    in that most-recent-first order; a message matches exactly when its room
    is the queried one and each requested topic is one of its topics, so
    with no requested topic every message of the room matches. *)
Theorem display_chat_messages_lifo (count : Z) (room : string)
    (topics : list string) (err : string) (head : list ChatMsg) :
  is_valid_room room head = true ->
  is_valid_topics topics head = true ->
  display_chat_messages count room topics err head
  = err ++ spec_print (spec_query head room topics (Z.to_nat count))
  /\ (forall m, In m (spec_query head room topics (Z.to_nat count)) ->
        Msg.room m = room /\ forall t, In t topics -> In t (Msg.topics m))
  /\ (topics = [] ->
        spec_query head room topics (Z.to_nat count)
        = firstn (Z.to_nat count)
            (filter (fun m => String.eqb room (Msg.room m)) head)).
Proof.
  intros Hroom Htopics. split; [|split].
  - rewrite display_chat_messages_spec. f_equal.
    destruct (spec_query _ _ _ _).
    + unfold rejection_text. rewrite Hroom, Htopics, andb_false_r.
      reflexivity.
    + apply append_nil_r.
  - intros m Hin. apply spec_matches_iff.
    unfold spec_query in Hin. apply In_firstn, filter_In in Hin. tauto.
  - intros ->. unfold spec_query. f_equal. apply filter_ext.
    intro m. unfold spec_matches. simpl. apply andb_true_r.
Qed.

Lemma display_chat_messages_lifo_witness :
  display_chat_messages 2 "r" ["#t"] "" three_messages
  = "@cy r #t" ++ nl ++ "third" ++ nl
    ++ "@bo r #t #u" ++ nl ++ "second" ++ nl.
Proof.
  exact (proj1 (display_chat_messages_lifo 2 "r" ["#t"] "" three_messages
                  eq_refl eq_refl)).
Defined.

(** C10.  The header line of each message a QUERY prints is the stored
    user, a space, the stored room, a space, the stored topics with one
    space between two, and a newline; for a message without topics the
    line therefore ends with a space just before the newline. *)
Theorem header_line_format :
  (forall (m : ChatMsg) (err : string),
      print_header m err
      = err ++ Msg.user m ++ " " ++ Msg.room m ++ " "
            ++ String.concat " " (Msg.topics m) ++ nl)
  /\ (forall (user room body err : string),
         print_header (Msg.mkChatMsg user room [] body) err
         = err ++ user ++ " " ++ room ++ " " ++ nl)
  /\ (forall (count : Z) (room : string) (topics : list string)
             (err : string) (head : list ChatMsg),
         exists rejections,
           display_chat_messages count room topics err head
           = err
             ++ spec_print (spec_query head room topics (Z.to_nat count))
             ++ rejections).
Proof.
  split; [|split].
  - intros m err. apply print_header_spec.
  - intros user room body err. apply print_header_spec.
  - intros count room topics err head.
    rewrite display_chat_messages_spec. eexists. reflexivity.
Qed.

(** C9.  On a line whose first character after trimming is the question
    mark, the words of the QUERY are read from the third character on,
    whatever the second character is; so on the line [?room 2] the room
    word is [oom], and the QUERY prints a message of room [oom]. *)
Theorem query_words_from_third_character :
  (forall (raw : string) (c : ascii) (rest : string),
      cstr (command_line raw) = String "?"%char (String c rest) ->
      query_words (command_line raw) = Some (strtok_words rest))
  /\ query_words (command_line ("?room 2" ++ nl)) = Some ["oom"; "2"]
  /\ parse_query ["oom"; "2"] = QueryHeader 2 "oom" []
  /\ chat_io (unlines ["+ @u oom #t"; "hi"; "."; "?room 2"])
     = Some (St.mkState [Msg.mkChatMsg "@u" "oom" ["#t"] ("hi" ++ nl)]
               EmptyString
               ("@u oom #t" ++ nl ++ "hi" ++ nl)).
Proof.
  split; [|repeat split; vm_compute; reflexivity].
  intros raw c rest Hc.
  destruct (cstr_two _ _ _ _ (command_line_terminated raw) Hc) as [Hlen Hrest].
  unfold query_words.
  apply Nat.ltb_lt in Hlen. rewrite Hlen, Hrest. reflexivity.
Qed.

Lemma query_words_from_third_character_witness :
  query_words (command_line ("?room 2" ++ nl)) = Some (strtok_words "oom 2").
Proof.
  exact (proj1 query_words_from_third_character
           ("?room 2" ++ nl) "r"%char "oom 2" eq_refl).
Defined.

(** ** The stream [out] *)

Section Out.

(** Neither loop of [chat_io] ever writes to [out]. *)
Lemma loops_keep_out (lines : list string) :
  (forall st,
      match chat_io_loop lines st with
      | Some st' => St.out st' = St.out st
      | None => True
      end)
  /\ (forall user room topics message st,
         match message_loop lines user room topics message st with
         | Some st' => St.out st' = St.out st
         | None => True
         end).
Proof.
  induction lines as [|raw rest [IHc IHm]]; split.
  - intros st. reflexivity.
  - intros user room topics [text|] st; reflexivity.
  - intros st. cbn [chat_io_loop].
    destruct (is_char "+"%char _).
    { destruct (parse_add _) as [text|user room topics]; [|apply IHm].
      exact (IHc (St.write_err text st)). }
    destruct (is_char "?"%char _).
    { destruct (query_words _) as [tokens|]; [|exact I].
      specialize (IHc (run_query tokens st)).
      destruct (chat_io_loop rest _); [|exact I].
      rewrite IHc. unfold run_query.
      now destruct (parse_query tokens). }
    destruct (negb _); [|apply IHc].
    exact (IHc (St.write_err _ st)).
  - intros user room topics message st. cbn [message_loop].
    destruct (is_char "."%char _); [|apply IHm].
    specialize (IHc (store_message user room topics message st)).
    destruct (chat_io_loop rest _); [|exact I].
    rewrite IHc. now destruct message.
Qed.

End Out.

(** ** Where the code departs from the specification *)

(** C1.  The code evaluated where the claim fails: the user [@Bob] and the
    room [Lobby] of an ADD are stored as they were written, only the topic
    is lower-cased; a QUERY for room [R] does not find the message added to
    room [r], and a QUERY for [lobby] does not find the one added to
    [Lobby]: both are answered with [BAD_ROOM]. *)
Theorem room_and_user_keep_their_case :
  chat_io (unlines ["+ @Bob r #T"; "hi"; "."; "? R"])
  = Some (St.mkState [Msg.mkChatMsg "@Bob" "r" ["#t"] ("hi" ++ nl)]
            EmptyString ("BAD_ROOM" ++ nl))
  /\ chat_io (unlines ["+ @Bob Lobby #T"; "hi"; "."; "? lobby"])
     = Some (St.mkState [Msg.mkChatMsg "@Bob" "Lobby" ["#t"] ("hi" ++ nl)]
               EmptyString ("BAD_ROOM" ++ nl)).
Proof. split; vm_compute; reflexivity. Qed.

(** C2.  The code evaluated where the claim fails: an ADD with the topics
    [#a #B #a] stores the three of them, the first one twice, and a QUERY
    prints them so. *)
Theorem repeated_topic_is_stored_twice :
  chat_io (unlines ["+ @u r #a #B #a"; "hi"; "."; "? r"])
  = Some (St.mkState [Msg.mkChatMsg "@u" "r" ["#a"; "#b"; "#a"] ("hi" ++ nl)]
            EmptyString ("@u r #a #b #a" ++ nl ++ "hi" ++ nl)).
Proof. vm_compute; reflexivity. Qed.

(** C3.  The code evaluated where the claim fails: a QUERY whose room and
    topic are both unknown to the store gets two lines on [err], [BAD_ROOM]
    and then [BAD_TOPIC], and each line is the bare code. *)
Theorem unknown_room_and_topic_both_reported :
  chat_io (unlines ["+ @u r #t"; "hi"; "."; "? nosuch #zz"])
  = Some (St.mkState [Msg.mkChatMsg "@u" "r" ["#t"] ("hi" ++ nl)]
            EmptyString ("BAD_ROOM" ++ nl ++ "BAD_TOPIC" ++ nl)).
Proof. vm_compute; reflexivity. Qed.

(** C5.  The code evaluated where the claim fails: the match of a QUERY is
    written to [err] and no blank line follows it, a QUERY of a known room
    and known topics without a match writes nothing at all, and on no input
    is anything written to [out]. *)
Theorem query_writes_no_blank_line :
  chat_io (unlines ["+ @u r #t"; "hi"; "."; "? r"])
  = Some (St.mkState [Msg.mkChatMsg "@u" "r" ["#t"] ("hi" ++ nl)]
            EmptyString ("@u r #t" ++ nl ++ "hi" ++ nl))
  /\ chat_io (unlines ["+ @u r #t"; "hi"; "."; "+ @u s #v"; "yo"; "."; "? r #v"])
     = Some (St.mkState [Msg.mkChatMsg "@u" "s" ["#v"] ("yo" ++ nl);
                        Msg.mkChatMsg "@u" "r" ["#t"] ("hi" ++ nl)]
               EmptyString EmptyString)
  /\ (forall input,
         match chat_io input with
         | Some st => St.out st = EmptyString
         | None => True
         end).
Proof.
  split; [vm_compute; reflexivity|].
  split; [vm_compute; reflexivity|].
  intro input. exact (proj1 (loops_keep_out (read_lines input)) St.init).
Qed.

(** C6.  The code evaluated where the claim fails: the COUNT word [0] is
    accepted, nothing is printed and no [BAD_COUNT] is written; and the
    word [2x], which only starts with a digit, is taken as the COUNT 2. *)
Theorem zero_count_is_accepted :
  parse_query ["r"; "0"] = QueryHeader 0 "r" []
  /\ chat_io (unlines ["+ @u r #t"; "hi"; "."; "? r 0"])
     = Some (St.mkState [Msg.mkChatMsg "@u" "r" ["#t"] ("hi" ++ nl)]
               EmptyString EmptyString)
  /\ parse_query ["r"; "2x"] = QueryHeader 2 "r" []
  /\ (forall tokens, parse_count tokens <> inl ("BAD_COUNT" ++ nl)).
Proof.
  split; [vm_compute; reflexivity|].
  split; [vm_compute; reflexivity|].
  split; [vm_compute; reflexivity|].
  intros [|token rest]; cbn [parse_count]; try discriminate.
  destruct (isdigit _); try discriminate.
  destruct (Z.ltb_spec (to_size_t (atoi token)) 0) as [Hneg|]; try discriminate.
  exfalso. unfold to_size_t in Hneg.
  pose proof (Z.mod_pos_bound (atoi token) (2 ^ 64) ltac:(lia)). lia.
Qed.

(** C7.  The code evaluated where the claim fails: the ADD line [+ @u r]
    without a topic is answered with [BAD_TOPIC], its body line is then
    read as a command, and nothing is stored. *)
Theorem add_without_topic_is_rejected :
  parse_add (command_line ("+ @u r" ++ nl)) = AddError ("BAD_TOPIC" ++ nl)
  /\ chat_io (unlines ["+ @u r"; "hello"; "."])
     = Some (St.mkState [] EmptyString
               ("BAD_TOPIC" ++ nl ++ "BAD_COMMAND" ++ nl)).
Proof. split; vm_compute; reflexivity. Qed.

(** C8.  The code evaluated where the claim fails: the line [.more] ends
    the message, so the body stored is the one line before it; and when the
    input ends after a body line without any terminator the message is
    stored and no [NO_MSG] is written. *)
Theorem line_starting_with_dot_ends_message :
  chat_io (unlines ["+ @u r #t"; "hello"; ".more"; "."])
  = Some (St.mkState [Msg.mkChatMsg "@u" "r" ["#t"] ("hello" ++ nl)]
            EmptyString EmptyString)
  /\ chat_io (unlines ["+ @u r #t"; "hello"])
     = Some (St.mkState [Msg.mkChatMsg "@u" "r" ["#t"] ("hello" ++ nl)]
               EmptyString EmptyString).
Proof. split; vm_compute; reflexivity. Qed.


(** * Further properties of the code *)

(** ** [to_lowercase] *)

Section LowerCase.

Lemma tolower_not_upper (c : ascii) : isupper (tolower c) = false.
Proof. destruct c as [[] [] [] [] [] [] [] []]; reflexivity. Qed.

Lemma tolower_fixed (c : ascii) : isupper c = false -> tolower c = c.
Proof. unfold tolower. now intros ->. Qed.

Lemma tolower_keeps_other (c x : ascii) :
  isalpha x = false -> is_char x (tolower c) = is_char x c.
Proof.
  unfold tolower. destruct (isupper c) eqn:Hc; [|reflexivity].
  intro Hx. unfold is_char.
  destruct (Ascii.eqb_spec (ascii_of_N (code c + 32)) x) as [E1|_],
           (Ascii.eqb_spec c x) as [E2|_]; try reflexivity; exfalso.
  - subst x. revert Hc Hx.
    destruct c as [[] [] [] [] [] [] [] []]; discriminate.
  - subst x. unfold isalpha in Hx. rewrite Hc in Hx. discriminate.
Qed.

End LowerCase.

(** X1.  [to_lowercase] keeps the length of a string, leaves no upper-case
    letter in it, changes nothing in a string without upper-case letters,
    and so gives the same result when it is applied twice. *)
Theorem to_lowercase_idempotent (s : string) :
  String.length (to_lowercase s) = String.length s
  /\ lower_case (to_lowercase s) = true
  /\ (lower_case s = true -> to_lowercase s = s)
  /\ to_lowercase (to_lowercase s) = to_lowercase s.
Proof.
  unfold lower_case.
  assert (Hfix : forall t,
             all_chars (fun c => negb (isupper c)) t = true ->
             to_lowercase t = t).
  { induction t as [|c t IH]; simpl; [reflexivity|].
    intros [Hc Ht]%andb_true_iff.
    rewrite tolower_fixed by now apply negb_true_iff.
    now rewrite IH. }
  assert (Hlow : all_chars (fun c => negb (isupper c)) (to_lowercase s)
                 = true).
  { induction s as [|c s IH]; simpl; [reflexivity|].
    now rewrite tolower_not_upper, IH. }
  split; [|split; [exact Hlow | split; [apply Hfix | apply Hfix, Hlow]]].
  clear. induction s as [|c s IH]; simpl; [reflexivity | now rewrite IH].
Qed.

Lemma to_lowercase_idempotent_witness :
  to_lowercase "#abc" = "#abc".
Proof.
  exact (proj1 (proj2 (proj2 (to_lowercase_idempotent "#abc"))) eq_refl).
Defined.

(** ** The look-ups of [chat.c] *)

Section Lookups.

Lemma topic_found_In (msg_topics : list string) (t : string) :
  topic_found msg_topics t = true <-> In t msg_topics.
Proof.
  induction msg_topics as [|u rest IH]; simpl; [easy|].
  unfold strcmp_eq. destruct (String.eqb_spec u t) as [->|Hne].
  - tauto.
  - rewrite IH. split; [tauto | intros [E|H]; [contradiction | exact H]].
Qed.

Lemma each_topic_found_incl (msg_topics topics : list string) :
  each_topic_found msg_topics topics = true <-> incl topics msg_topics.
Proof.
  induction topics as [|t rest IH]; simpl.
  - split; [intros _ x [] | reflexivity].
  - destruct (topic_found msg_topics t) eqn:Ht.
    + apply topic_found_In in Ht. rewrite IH. split.
      * intros H x [<-|Hx]; auto.
      * intros H x Hx. apply H. now right.
    + split; [discriminate|]. intro H.
      assert (Hin : In t msg_topics) by (apply H; now left).
      apply topic_found_In in Hin. congruence.
Qed.

Lemma matches_incl (m : ChatMsg) (topics : list string) :
  message_matches_topics m topics = true <-> incl topics (Msg.topics m).
Proof.
  unfold message_matches_topics. destruct topics as [|t rest].
  - split; [intros _ x [] | reflexivity].
  - apply each_topic_found_incl.
Qed.

Lemma is_valid_room_In (room : string) (head : list ChatMsg) :
  is_valid_room room head = true
  <-> exists m, In m head /\ Msg.room m = room.
Proof.
  induction head as [|m next IH]; simpl.
  - split; [discriminate | intros [m [[] _]]].
  - unfold strcmp_eq. destruct (String.eqb_spec room (Msg.room m)) as [E|Hne].
    + split; [|reflexivity]. intros _. exists m. auto.
    + rewrite IH. split; intros [m' [Hin Hr]].
      * exists m'. auto.
      * destruct Hin as [<-|Hin]; [now symmetry in Hr | exists m'; auto].
Qed.

Lemma topic_in_list_In (topic : string) (head : list ChatMsg) :
  topic_in_list topic head = true
  <-> exists m, In m head /\ In topic (Msg.topics m).
Proof.
  induction head as [|m next IH]; simpl.
  - split; [discriminate | intros [m [[] _]]].
  - destruct (topic_found (Msg.topics m) topic) eqn:Ht.
    + apply topic_found_In in Ht. split; [|reflexivity].
      intros _. exists m. auto.
    + rewrite IH. split; intros [m' [Hin Hr]].
      * exists m'. auto.
      * destruct Hin as [<-|Hin]; [|exists m'; auto].
        apply topic_found_In in Hr. congruence.
Qed.

Lemma is_valid_topics_In (topics : list string) (head : list ChatMsg) :
  is_valid_topics topics head = true
  <-> forall t, In t topics -> exists m, In m head /\ In t (Msg.topics m).
Proof.
  unfold is_valid_topics.
  assert (H : each_topic_in_list topics head = true
              <-> forall t, In t topics ->
                    exists m, In m head /\ In t (Msg.topics m)).
  { induction topics as [|t rest IH]; simpl.
    - split; [intros _ x [] | reflexivity].
    - destruct (topic_in_list t head) eqn:Ht.
      + apply topic_in_list_In in Ht. rewrite IH. split.
        * intros H x [<-|Hx]; auto.
        * intros H x Hx. apply H. now right.
      + split; [discriminate|]. intro H.
        assert (Hin : topic_in_list t head = true)
          by (apply topic_in_list_In, H; now left).
        congruence. }
  destruct topics as [|t rest]; [|exact H].
  split; [intros _ x [] | reflexivity].
Qed.

End Lookups.

(** X2.  [is_valid_room] answers whether some stored message is in the
    room, and [is_valid_topics] whether each of the topics is a topic of
    some stored message (not necessarily the same one for all); with no
    topic the answer is yes. *)
Theorem validity_lookups (room : string) (topics : list string)
    (head : list ChatMsg) :
  (is_valid_room room head = true
   <-> exists m, In m head /\ Msg.room m = room)
  /\ (is_valid_topics topics head = true
      <-> forall t, In t topics ->
            exists m, In m head /\ In t (Msg.topics m))
  /\ is_valid_topics [] head = true.
Proof.
  split; [apply is_valid_room_In | split; [apply is_valid_topics_In|]].
  reflexivity.
Qed.

(** X3.  Once a message is added, its room and its topics are known to the
    store, and every room and every topic set that was known stays known. *)
Theorem add_chat_msg_makes_known (m : ChatMsg) (head : list ChatMsg) :
  is_valid_room (Msg.room m) (add_chat_msg m head) = true
  /\ is_valid_topics (Msg.topics m) (add_chat_msg m head) = true
  /\ (forall room, is_valid_room room head = true ->
        is_valid_room room (add_chat_msg m head) = true)
  /\ (forall topics, is_valid_topics topics head = true ->
        is_valid_topics topics (add_chat_msg m head) = true).
Proof.
  unfold add_chat_msg. repeat split.
  - apply is_valid_room_In. exists m. split; [now left | reflexivity].
  - apply is_valid_topics_In. intros t Ht. exists m. split; [now left | exact Ht].
  - intros room [m' [Hin Hr]]%is_valid_room_In.
    apply is_valid_room_In. exists m'. split; [now right | exact Hr].
  - intros topics H. apply is_valid_topics_In. intros t Ht.
    destruct (proj1 (is_valid_topics_In topics head) H t Ht) as [m' [Hin Hm]].
    exists m'. split; [now right | exact Hm].
Qed.

Lemma add_chat_msg_makes_known_witness :
  is_valid_room "r" (add_chat_msg (Msg.mkChatMsg "@u" "s" ["#v"] "yo")
                       three_messages) = true.
Proof.
  exact (proj1 (proj2 (proj2 (add_chat_msg_makes_known
                                (Msg.mkChatMsg "@u" "s" ["#v"] "yo")
                                three_messages))) "r" eq_refl).
Defined.

(** X4.  A message matches a list of requested topics exactly when each
    of them is one of its topics; so the message's own topics match, and a
    message that matches a list matches every list made of topics of that
    list, whatever their order and repetitions. *)
Theorem message_matches_topics_incl (m : ChatMsg) (topics : list string) :
  (message_matches_topics m topics = true <-> incl topics (Msg.topics m))
  /\ message_matches_topics m (Msg.topics m) = true
  /\ (forall fewer, incl fewer topics ->
        message_matches_topics m topics = true ->
        message_matches_topics m fewer = true).
Proof.
  split; [apply matches_incl | split].
  - apply matches_incl, incl_refl.
  - intros fewer Hsub H. apply matches_incl. apply matches_incl in H.
    eapply incl_tran; eassumption.
Qed.

Lemma message_matches_topics_incl_witness :
  message_matches_topics (Msg.mkChatMsg "@bo" "r" ["#t"; "#u"] "second")
    ["#u"; "#u"] = true.
Proof.
  refine (proj2 (proj2 (message_matches_topics_incl
                          (Msg.mkChatMsg "@bo" "r" ["#t"; "#u"] "second")
                          ["#u"; "#t"])) ["#u"; "#u"] _ eq_refl).
  intros t [<-|[<-|[]]]; simpl; auto.
Defined.

(** ** What a QUERY answers *)

Section Answers.

Lemma filter_none {A : Type} (f : A -> bool) (l : list A) :
  (forall x, In x l -> f x = false) -> filter f l = [].
Proof.
  induction l as [|x l IH]; intro H; simpl; [reflexivity|].
  rewrite (H x) by now left. apply IH. intros y Hy. apply H. now right.
Qed.

Lemma spec_matches_split (room : string) (topics : list string) (m : ChatMsg) :
  spec_matches room topics m
  = String.eqb room (Msg.room m) && message_matches_topics m topics.
Proof. symmetry. apply loop_test_spec. Qed.

Lemma unknown_room_no_match (room : string) (topics : list string)
    (head : list ChatMsg) :
  is_valid_room room head = false ->
  filter (spec_matches room topics) head = [].
Proof.
  intro Hroom. apply filter_none. intros m Hin.
  rewrite spec_matches_split.
  destruct (String.eqb_spec room (Msg.room m)) as [E|_]; [|reflexivity].
  assert (is_valid_room room head = true)
    by (apply is_valid_room_In; exists m; auto).
  congruence.
Qed.

Lemma unknown_topic_no_match (room : string) (topics : list string)
    (head : list ChatMsg) :
  is_valid_topics topics head = false ->
  filter (spec_matches room topics) head = [].
Proof.
  intro Htopics. apply filter_none. intros m Hin.
  rewrite spec_matches_split.
  destruct (message_matches_topics m topics) eqn:Hm; [|apply andb_false_r].
  apply matches_incl in Hm.
  assert (is_valid_topics topics head = true).
  { apply is_valid_topics_In. intros t Ht. exists m. auto. }
  congruence.
Qed.

End Answers.

(** X5.  A QUERY for a room no stored message is in prints no message,
    whatever the count: it writes [BAD_ROOM], and after it [BAD_TOPIC] too
    when one of the requested topics is a topic of no stored message. *)
Theorem unknown_room_is_rejected (count : Z) (room : string)
    (topics : list string) (err : string) (head : list ChatMsg) :
  is_valid_room room head = false ->
  display_chat_messages count room topics err head
  = err ++ "BAD_ROOM" ++ nl
        ++ (if is_valid_topics topics head then EmptyString
            else "BAD_TOPIC" ++ nl).
Proof.
  intro Hroom. rewrite display_chat_messages_spec. unfold spec_query.
  rewrite unknown_room_no_match by exact Hroom.
  rewrite firstn_nil. simpl. unfold rejection_text. rewrite Hroom.
  destruct topics as [|t rest]; [reflexivity|].
  now destruct (is_valid_topics (t :: rest) head).
Qed.

Lemma unknown_room_is_rejected_witness :
  display_chat_messages 5 "s" ["#t"] "" three_messages = "BAD_ROOM" ++ nl.
Proof.
  exact (unknown_room_is_rejected 5 "s" ["#t"] "" three_messages eq_refl).
Defined.

(** X6.  A QUERY for a known room with a requested topic that is a topic
    of no stored message prints no message and writes the one line
    [BAD_TOPIC]. *)
Theorem unknown_topic_is_rejected (count : Z) (room : string)
    (topics : list string) (err : string) (head : list ChatMsg) :
  is_valid_room room head = true ->
  is_valid_topics topics head = false ->
  display_chat_messages count room topics err head
  = err ++ "BAD_TOPIC" ++ nl.
Proof.
  intros Hroom Htopics. rewrite display_chat_messages_spec. unfold spec_query.
  rewrite unknown_topic_no_match by exact Htopics.
  rewrite firstn_nil. simpl. unfold rejection_text.
  rewrite Hroom, Htopics.
  destruct topics as [|t rest]; [discriminate Htopics | reflexivity].
Qed.

Lemma unknown_topic_is_rejected_witness :
  display_chat_messages 5 "r" ["#t"; "#zz"] "" three_messages
  = "BAD_TOPIC" ++ nl.
Proof.
  exact (unknown_topic_is_rejected 5 "r" ["#t"; "#zz"] "" three_messages
           eq_refl eq_refl).
Defined.



(** ** [trim_whitespace] on a line buffer *)

Section Trim.

Lemma length_poke (c : ascii) (s : string) :
  forall i, String.length (poke i c s) = String.length s.
Proof.
  induction s as [|d s IH]; intros [|i]; simpl; auto.
Qed.

Lemma length_take (s : string) :
  forall n, (n <= String.length s)%nat -> String.length (take n s) = n.
Proof.
  induction s as [|c s IH]; intros [|n] H; simpl in *; try lia.
  rewrite IH; lia.
Qed.

Lemma length_drop (s : string) :
  forall n, String.length (drop n s) = (String.length s - n)%nat.
Proof.
  induction s as [|c s IH]; intros [|n]; simpl; auto.
Qed.

Lemma take_drop (s : string) : forall n, take n s ++ drop n s = s.
Proof.
  induction s as [|c s IH]; intros [|n]; simpl; try reflexivity.
  now rewrite IH.
Qed.

Lemma get_drop (s : string) :
  forall n i, String.get i (drop n s) = String.get (n + i) s.
Proof.
  induction s as [|c s IH]; intros [|n] i; simpl; try reflexivity.
  apply IH.
Qed.

Lemma get_in_range (s : string) :
  forall i, (i < String.length s)%nat -> exists c, String.get i s = Some c.
Proof.
  induction s as [|d s IH]; intros [|i] H; simpl in *; try lia.
  - now exists d.
  - apply IH. lia.
Qed.

Lemma all_chars_get (p : ascii -> bool) (s : string) :
  (forall i c, String.get i s = Some c -> p c = true) ->
  all_chars p s = true.
Proof.
  induction s as [|d s IH]; intro H; simpl; [reflexivity|].
  rewrite (H O d eq_refl). apply IH. intros i c Hi. exact (H (S i) c Hi).
Qed.

Lemma strlen_le_length (s : string) : (strlen s <= String.length s)%nat.
Proof.
  unfold strlen. induction s as [|c s IH]; simpl; [lia|].
  destruct (is_char NUL c); simpl; lia.
Qed.

Lemma terminated_strlen (s : string) :
  terminated s = true -> (strlen s < String.length s)%nat.
Proof.
  unfold strlen. induction s as [|c s IH]; simpl; [discriminate|].
  destruct (is_char NUL c); simpl; [lia|]. intro H. apply IH in H. lia.
Qed.

(** Writing a NUL inside a C string cuts it there. *)
Lemma cstr_poke (s : string) :
  forall i, (i <= strlen s)%nat -> cstr (poke i NUL s) = take i (cstr s).
Proof.
  unfold strlen.
  induction s as [|c s IH]; intros [|i] H; try reflexivity.
  cbn [poke cstr take] in *.
  destruct (is_char NUL c); cbn [String.length] in *; [lia|].
  rewrite IH by lia. reflexivity.
Qed.

(** The bytes [memmove] copies, a C string and its NUL, hold that string. *)
Lemma cstr_take_strlen (x y : string) :
  terminated x = true -> cstr (take (strlen x + 1) x ++ y) = cstr x.
Proof.
  unfold strlen.
  induction x as [|c x IH]; simpl; [discriminate|].
  destruct (is_char NUL c) eqn:Hc; simpl; rewrite Hc; [reflexivity|].
  simpl. intro H. now rewrite IH.
Qed.

Lemma skip_space_split (s : string) :
  cstr s = take (skip_space s) s ++ cstr (drop (skip_space s) s)
  /\ all_chars isspace (take (skip_space s) s) = true.
Proof.
  induction s as [|c s [IH1 IH2]]; simpl; [auto|].
  destruct (isspace c) eqn:Hc; simpl.
  - rewrite (isspace_not_NUL c Hc), Hc, IH2. rewrite IH1 at 1. auto.
  - auto.
Qed.

Lemma first_after_skip_space (s : string) :
  isspace (first_char (cstr (drop (skip_space s) s))) = false.
Proof.
  induction s as [|c s IH]; simpl; [reflexivity|].
  destruct (isspace c) eqn:Hc; simpl; [exact IH|].
  destruct (is_char NUL c); simpl; [reflexivity | exact Hc].
Qed.

Lemma back_over_space_le (s : string) :
  forall e, (back_over_space s e <= e)%nat.
Proof.
  induction e as [|e IH]; simpl; [lia|].
  destruct (String.get (S e) s) as [c|]; [|lia].
  destruct (isspace c); lia.
Qed.

(** Where the backward loop stops: on the first character, or on one that
    is not white space; every character it passed is white space. *)
Lemma back_over_space_stop (s : string) :
  forall e, (e < String.length s)%nat ->
    (back_over_space s e = O
     \/ exists c, String.get (back_over_space s e) s = Some c
                  /\ isspace c = false)
    /\ (forall i c, (back_over_space s e < i <= e)%nat ->
          String.get i s = Some c -> isspace c = true).
Proof.
  induction e as [|e IH]; intro Hlen; simpl.
  - split; [now left | intros; lia].
  - destruct (get_in_range s (S e) Hlen) as [c Hg]. rewrite Hg.
    destruct IH as [IH1 IH2]; [lia|].
    destruct (isspace c) eqn:Hc.
    + split; [exact IH1|]. intros i c' Hi Hgi.
      destruct (Nat.eq_dec i (S e)) as [->|Hne].
      * congruence.
      * apply (IH2 i c'); [lia | exact Hgi].
    + split; [right; exists c; auto | intros; lia].
Qed.

Lemma last_char_take (s : string) :
  forall i c, String.get i s = Some c -> last_char (take (S i) s) = c.
Proof.
  induction s as [|d s IH]; intros [|i] c H; simpl in *; try discriminate.
  - destruct s; congruence.
  - specialize (IH i c H). destruct s as [|d' s']; [destruct i; discriminate|].
    exact IH.
Qed.

End Trim.

Section TrimResult.

Lemma get_some_lt (s : string) :
  forall i c, String.get i s = Some c -> (i < String.length s)%nat.
Proof.
  induction s as [|d s IH]; intros [|i] c H; simpl in *;
    try discriminate; try lia.
  apply IH in H. lia.
Qed.

(** the buffer [memmove] reads in [trim_whitespace] is terminated *)
Lemma trim_source_terminated (str : string) (e : nat) :
  terminated str = true ->
  terminated (drop (skip_space str) (poke (skip_space str + e + 1) NUL str))
  = true.
Proof.
  intro Ht. rewrite <- Nat.add_assoc, drop_poke.
  apply poke_NUL_terminated, drop_skip_space_terminated, Ht.
Qed.

(** [trim_whitespace] writes inside the buffer only: its size is kept. *)
Lemma trim_whitespace_length (str : string) :
  terminated str = true ->
  String.length (trim_whitespace str) = String.length str.
Proof.
  intro Ht. unfold trim_whitespace.
  destruct (cstr (drop (skip_space str) str)) as [|t tl] eqn:Htail.
  - apply length_poke.
  - unfold memmove_front.
    set (e := back_over_space _ _).
    pose proof (trim_source_terminated str e Ht) as Hy.
    set (str1 := poke (skip_space str + e + 1) NUL str) in *.
    set (y := drop (skip_space str) str1) in *.
    apply terminated_strlen in Hy.
    assert (Hlen : (String.length y <= String.length str1)%nat)
      by (unfold y; rewrite length_drop; lia).
    rewrite length_append, length_take, length_drop by lia.
    unfold str1 in *. rewrite length_poke in *. lia.
Qed.

(** The C string [trim_whitespace] leaves, from the one after the leading
    white space and the place where the backward loop stops. *)
Lemma trim_whitespace_cstr (str : string) :
  terminated str = true ->
  cstr (trim_whitespace str)
  = match cstr (drop (skip_space str) str) with
    | EmptyString => EmptyString
    | String t tl =>
        take (S (back_over_space (String t tl) (String.length tl)))
          (String t tl)
    end.
Proof.
  intro Ht. unfold trim_whitespace.
  destruct (cstr (drop (skip_space str) str)) as [|t tl] eqn:Htail.
  - apply (cstr_poke str 0). lia.
  - unfold memmove_front.
    replace (String.length (String t tl) - 1)%nat with (String.length tl)
      by (simpl; lia).
    set (e := back_over_space _ _).
    rewrite cstr_take_strlen by (apply trim_source_terminated, Ht).
    rewrite <- Nat.add_assoc, drop_poke, cstr_poke.
    + rewrite Htail. now replace (e + 1)%nat with (S e) by lia.
    + unfold strlen. rewrite Htail.
      pose proof (back_over_space_le (String t tl) (String.length tl)).
      fold e in H. simpl. lia.
Qed.

End TrimResult.

(** X8.  On a terminated buffer [trim_whitespace] leaves the C string
    without the white space at its two ends: the old string is white space,
    then the new string, then white space, and the new string neither
    starts nor ends with a white-space character (it is empty when the old
    one is all white space).  The buffer keeps its size and stays
    terminated. *)
Theorem trim_whitespace_trims (str : string) :
  terminated str = true ->
  (exists lead trail,
      cstr str = lead ++ cstr (trim_whitespace str) ++ trail
      /\ all_chars isspace lead = true
      /\ all_chars isspace trail = true)
  /\ isspace (first_char (cstr (trim_whitespace str))) = false
  /\ isspace (last_char (cstr (trim_whitespace str))) = false
  /\ String.length (trim_whitespace str) = String.length str
  /\ terminated (trim_whitespace str) = true.
Proof.
  intro Ht.
  split; [|split; [|split; [|split]]];
    try (apply trim_whitespace_length, Ht);
    try (apply trim_whitespace_terminated, Ht);
    rewrite trim_whitespace_cstr by exact Ht;
    destruct (skip_space_split str) as [Hsplit Hlead];
    pose proof (first_after_skip_space str) as Hfirst;
    destruct (cstr (drop (skip_space str) str)) as [|t tl] eqn:Htail.
  - exists (take (skip_space str) str), EmptyString. auto.
  - exists (take (skip_space str) str),
      (drop (S (back_over_space (String t tl) (String.length tl)))
         (String t tl)).
    rewrite take_drop. repeat split; auto.
    apply all_chars_get. intros i c Hi. rewrite get_drop in Hi.
    destruct (back_over_space_stop (String t tl) (String.length tl))
      as [_ Hpassed]; [simpl; lia|].
    refine (Hpassed _ c _ Hi).
    apply get_some_lt in Hi. simpl in Hi. lia.
  - reflexivity.
  - exact Hfirst.
  - reflexivity.
  - destruct (back_over_space_stop (String t tl) (String.length tl))
      as [[H0|[c [Hc Hs]]] _]; [simpl; lia| |].
    + rewrite H0. exact Hfirst.
    + now rewrite (last_char_take _ _ _ Hc).
Qed.

Lemma trim_whitespace_trims_witness :
  isspace (last_char (cstr (command_line ("  ? room 3  " ++ nl)))) = false.
Proof.
  exact (proj1 (proj2 (proj2 (trim_whitespace_trims
                                (strip_newline ("  ? room 3  " ++ nl))
                                eq_refl)))).
Defined.

(** ** Reasoning on the two loops of [chat_io] *)

Section Loops.

(** A relation between the state before and the state after that each step
    of the loops establishes, and that is reflexive and transitive, holds
    between the state [chat_io] starts a run of lines with and the state it
    ends it with.  The steps are: an error line, a QUERY, and the storing of
    a message whose header [parse_add] accepted. *)
Variable R : state -> state -> Prop.
Hypothesis R_refl : forall st, R st st.
Hypothesis R_trans : forall a b c, R a b -> R b c -> R a c.
Hypothesis R_err : forall text st, R st (St.write_err text st).
Hypothesis R_query : forall tokens st, R st (run_query tokens st).
Hypothesis R_add :
  forall line user room topics text st,
    parse_add line = AddHeader user room topics ->
    R st (St.set_head
            (add_chat_msg (create_chat_message user room text topics)
               (St.head st)) st).

Lemma loops_step (lines : list string) :
  (forall st st', chat_io_loop lines st = Some st' -> R st st')
  /\ (forall line user room topics message st st',
         parse_add line = AddHeader user room topics ->
         message_loop lines user room topics message st = Some st' ->
         R st st').
Proof.
  assert (Hstore : forall line user room topics message st,
             parse_add line = AddHeader user room topics ->
             R st (store_message user room topics message st)).
  { intros line user room topics [text|] st Hp; simpl; eauto. }
  induction lines as [|raw rest [IHc IHm]]; split.
  - intros st st' [= <-]. apply R_refl.
  - intros line user room topics message st st' Hp [= <-]. eauto.
  - intros st st'. cbn [chat_io_loop].
    destruct (is_char "+"%char _).
    { destruct (parse_add _) as [text|user room topics] eqn:Hp; eauto. }
    destruct (is_char "?"%char _).
    { destruct (query_words _) as [tokens|]; [eauto | discriminate]. }
    destruct (negb _); eauto.
  - intros line user room topics message st st' Hp. cbn [message_loop].
    destruct (is_char "."%char _); eauto.
Qed.

End Loops.

(** ** The words of a command line *)

Section Words.

Lemma all_chars_app (p : ascii -> bool) (s t : string) :
  all_chars p (s ++ t) = all_chars p s && all_chars p t.
Proof.
  induction s as [|c s IH]; simpl; [reflexivity|].
  now rewrite IH, andb_assoc.
Qed.

(** Each word [strtok] returns is not empty and holds no space. *)
Lemma strtok_from_words (s : string) :
  forall cur,
    all_chars not_space cur = true ->
    Forall (fun w => is_word w = true) (strtok_from s cur).
Proof.
  assert (Hw : forall a b, all_chars not_space (String a b) = true ->
                           is_word (String a b) = true).
  { intros a b H. unfold is_word. simpl String.eqb. exact H. }
  induction s as [|c s IH]; intros cur Hcur; simpl.
  - destruct cur; auto.
  - destruct (is_char " "%char c) eqn:Hc.
    + destruct cur; auto.
    + apply IH. rewrite all_chars_app, Hcur. simpl.
      unfold not_space. now rewrite Hc.
Qed.

Lemma strtok_words_words (s : string) :
  Forall (fun w => is_word w = true) (strtok_words s).
Proof. now apply strtok_from_words. Qed.

Lemma to_lowercase_lower (s : string) : lower_case (to_lowercase s) = true.
Proof.
  unfold lower_case. induction s as [|c s IH]; simpl; [reflexivity|].
  now rewrite tolower_not_upper, IH.
Qed.

Lemma to_lowercase_word (s : string) :
  is_word (to_lowercase s) = is_word s.
Proof.
  unfold is_word. f_equal; [now destruct s|].
  induction s as [|c s IH]; simpl; [reflexivity|].
  now rewrite IH, tolower_keeps_other.
Qed.

Lemma to_lowercase_first (x : ascii) (s : string) :
  isalpha x = false ->
  is_char x (first_char (to_lowercase s)) = is_char x (first_char s).
Proof.
  intro Hx. destruct s as [|c s]; [reflexivity|].
  simpl. now apply tolower_keeps_other.
Qed.

Lemma topic_shape_lowered (token : string) :
  is_char "#"%char (first_char token) = true ->
  is_word token = true ->
  topic_shape (to_lowercase token) = true.
Proof.
  intros Hh Hw. unfold topic_shape.
  now rewrite to_lowercase_first, Hh, to_lowercase_lower, to_lowercase_word, Hw.
Qed.

(** The loop over the topic words: it takes the words from the first one to
    the last one before a word that does not start with [#]. *)
Lemma collect_topics_shape (tokens : list string) :
  forall topics,
    Forall (fun w => is_word w = true) tokens ->
    forallb topic_shape topics = true ->
    forallb topic_shape (fst (collect_topics tokens topics)) = true
    /\ (List.length topics <= List.length (fst (collect_topics tokens topics)))%nat.
Proof.
  induction tokens as [|token rest IH]; intros topics Hw Ht; simpl; [auto|].
  inversion Hw as [|? ? Hword Hrest]; subst.
  destruct (is_char "#"%char (first_char token)) eqn:Hh; simpl; [|auto].
  destruct (IH (topics ++ [to_lowercase token])%list Hrest) as [H1 H2].
  - rewrite forallb_app, Ht. simpl.
    now rewrite topic_shape_lowered.
  - split; [exact H1|]. rewrite length_app in H2. simpl in H2. lia.
Qed.

(** The header [parse_add] accepts has the shape of a message. *)
Lemma parse_add_shape (line user room body : string) (topics : list string) :
  parse_add line = AddHeader user room topics ->
  message_shape (Msg.mkChatMsg user room topics body) = true.
Proof.
  unfold parse_add.
  pose proof (strtok_words_words (cstr (drop 1 line))) as Hw.
  destruct (strtok_words _) as [|u tokens]; [discriminate|].
  inversion Hw as [|? ? Hu Hw1]; subst.
  destruct (is_char "@"%char (first_char u)) eqn:Hat; [|discriminate].
  destruct tokens as [|r tokens]; [discriminate|].
  inversion Hw1 as [|? ? Hr Hw2]; subst.
  destruct (isalpha (first_char r)) eqn:Hal; [|discriminate].
  destruct tokens as [|t tokens]; [discriminate|].
  destruct (is_char "#"%char (first_char t)) eqn:Hh; [|discriminate].
  intros [= <- <- <-].
  unfold message_shape. simpl Msg.user. simpl Msg.room. simpl Msg.topics.
  rewrite Hat, Hu, Hal, Hr. simpl andb.
  inversion Hw2 as [|? ? Ht Hw3]; subst.
  cbn [collect_topics]. rewrite Hh. cbn [app].
  destruct (collect_topics_shape tokens [to_lowercase t] Hw3) as [H1 H2].
  - simpl. now rewrite topic_shape_lowered.
  - rewrite H1, andb_true_r. simpl in H2.
    destruct (List.length _); [lia | reflexivity].
Qed.

End Words.

(** X9.  Every message [chat_io] stores has a user word starting with [@],
    a room word starting with a letter, and one topic at least, each topic
    a lower-case word starting with [#]; no word is empty or holds a space.
    The property is kept by every run of lines, so it holds of the whole
    store at the end of the input. *)
Theorem stored_messages_have_shape :
  (forall lines st st',
      chat_io_loop lines st = Some st' ->
      forallb message_shape (St.head st) = true ->
      forallb message_shape (St.head st') = true)
  /\ (forall input st,
         chat_io input = Some st ->
         forallb message_shape (St.head st) = true).
Proof.
  assert (H : forall lines st st',
             chat_io_loop lines st = Some st' ->
             forallb message_shape (St.head st) = true ->
             forallb message_shape (St.head st') = true).
  { intros lines.
    apply (loops_step
             (fun st st' =>
                forallb message_shape (St.head st) = true ->
                forallb message_shape (St.head st') = true)); auto.
    - intros tokens st. unfold run_query.
      now destruct (parse_query tokens).
    - intros line user room topics text st Hp Hst. simpl.
      unfold create_chat_message.
      now rewrite (parse_add_shape line user room text topics Hp). }
  split; [exact H|].
  intros input st Hrun. exact (H _ _ _ Hrun eq_refl).
Qed.

Lemma stored_messages_have_shape_witness :
  forallb message_shape
    [Msg.mkChatMsg "@Bob" "Lobby" ["#t"; "#u"] ("hi" ++ nl)] = true.
Proof.
  exact (proj2 stored_messages_have_shape
           (unlines ["+ @Bob Lobby #T #u"; "hi"; "."])
           (St.mkState [Msg.mkChatMsg "@Bob" "Lobby" ["#t"; "#u"] ("hi" ++ nl)]
              EmptyString EmptyString)
           eq_refl).
Defined.

(** X10.  The store only grows and [err] only grows: after any run of
    lines the message list is the old one with the new messages in front of
    it, and the text on [err] is the old one with more text after it.  A
    QUERY, accepted or not, leaves the list as it is. *)
Theorem store_and_err_only_grow :
  (forall lines st st',
      chat_io_loop lines st = Some st' ->
      (exists added, St.head st' = (added ++ St.head st)%list)
      /\ (exists text, St.err st' = St.err st ++ text))
  /\ (forall tokens st, St.head (run_query tokens st) = St.head st).
Proof.
  assert (Hq : forall tokens st,
             St.head (run_query tokens st) = St.head st
             /\ exists text, St.err (run_query tokens st) = St.err st ++ text).
  { intros tokens st. unfold run_query.
    destruct (parse_query tokens) as [text|count room topics]; simpl.
    - split; [reflexivity | now exists text].
    - split; [reflexivity|]. rewrite display_chat_messages_spec. eauto. }
  split; [|intros; apply Hq].
  intro lines.
  apply (loops_step
           (fun st st' =>
              (exists added, St.head st' = (added ++ St.head st)%list)
              /\ (exists text, St.err st' = St.err st ++ text))).
  - intro st. split; [now exists [] | exists EmptyString].
    now rewrite append_nil_r.
  - intros a b c [[ab Hab] [tab Htab]] [[bc Hbc] [tbc Htbc]]. split.
    + exists (bc ++ ab)%list. now rewrite Hbc, Hab, app_assoc.
    + exists (tab ++ tbc). now rewrite Htbc, Htab, append_assoc.
  - intros text st. split; [now exists [] | now exists text].
  - intros tokens st. destruct (Hq tokens st) as [Hh Ht].
    split; [exists []; now rewrite Hh | exact Ht].
  - intros line user room topics text st _. split.
    + now exists [create_chat_message user room text topics].
    + exists EmptyString. simpl. now rewrite append_nil_r.
Qed.

Lemma store_and_err_only_grow_witness :
  exists added,
    [Msg.mkChatMsg "@u" "s" ["#v"] ("yo" ++ nl);
     Msg.mkChatMsg "@cy" "r" ["#t"] ("third" ++ nl)]
    = (added ++ [Msg.mkChatMsg "@cy" "r" ["#t"] ("third" ++ nl)])%list.
Proof.
  exact (proj1 (proj1 store_and_err_only_grow
                  ["+ @u s #v" ++ nl; "yo" ++ nl; "." ++ nl; "? s" ++ nl]
                  (St.mkState [Msg.mkChatMsg "@cy" "r" ["#t"] ("third" ++ nl)]
                     EmptyString EmptyString)
                  (St.mkState
                     [Msg.mkChatMsg "@u" "s" ["#v"] ("yo" ++ nl);
                      Msg.mkChatMsg "@cy" "r" ["#t"] ("third" ++ nl)]
                     EmptyString ("@u s #v" ++ nl ++ "yo" ++ nl))
                  eq_refl)).
Defined.

(** ** The one read outside the line buffer *)

Section InBuffer.

Lemma strip_newline_length (raw : string) :
  String.length (strip_newline raw) = S (String.length raw).
Proof.
  assert (H : String.length (line_buffer raw) = S (String.length raw)).
  { unfold line_buffer. rewrite length_append. simpl. lia. }
  unfold strip_newline.
  destruct (String.get _ _) as [c|]; [destruct (is_char LF c)|];
    rewrite ?length_poke; exact H.
Qed.

Lemma command_line_length (raw : string) :
  String.length (command_line raw) = S (String.length raw).
Proof.
  unfold command_line.
  rewrite trim_whitespace_length by apply strip_newline_terminated.
  apply strip_newline_length.
Qed.

(** The QUERY branch reads outside the buffer on one line only: the one
    made of the question mark alone, without a newline. *)
Lemma lone_question_mark (raw : string) :
  is_char "?"%char (first_char (command_line raw)) = true ->
  query_words (command_line raw) = None ->
  raw = "?".
Proof.
  intros Hq Hnone. unfold query_words in Hnone.
  rewrite command_line_length in Hnone.
  destruct raw as [|c [|d raw]]; [| |discriminate Hnone].
  - vm_compute in Hq. discriminate Hq.
  - clear Hnone. destruct c as [[] [] [] [] [] [] [] []];
      vm_compute in Hq; try discriminate Hq; reflexivity.
Qed.

Lemma read_lines_none (input : string) : read_lines input = [] -> input = "".
Proof.
  destruct input as [|c rest]; [reflexivity|]. simpl.
  destruct (is_char LF c); [discriminate|].
  destruct (read_lines rest); discriminate.
Qed.

(** When the stream ends with a newline, so does each line read from it. *)
Lemma read_lines_end (input : string) :
  last_char input = LF ->
  Forall (fun l => last_char l = LF) (read_lines input).
Proof.
  induction input as [|c rest IH]; intro Hlast; simpl; [constructor|].
  assert (Hrest : rest <> "" -> last_char rest = LF)
    by (destruct rest; [congruence | exact (fun _ => Hlast)]).
  unfold is_char. destruct (Ascii.eqb_spec c LF) as [->|Hc].
  - constructor; [reflexivity|].
    destruct rest; [constructor | apply IH, Hrest; discriminate].
  - destruct (read_lines rest) as [|l ls] eqn:Hl.
    + apply read_lines_none in Hl. subst rest. simpl in Hlast. contradiction.
    + assert (Hne : rest <> "") by (intros ->; discriminate Hl).
      specialize (IH (Hrest Hne)).
      inversion IH as [|? ? Hlf Hls]; subst. constructor; [|exact Hls].
      destruct l; [discriminate Hlf | exact Hlf].
Qed.

End InBuffer.

(** X11.  [chat_io] runs to the end of its input on every run of lines
    none of which is the question mark alone without a newline: on no other
    line does the code read outside the line buffer.  In particular it runs
    to the end of every input that is empty or ends with a newline. *)
Theorem chat_io_reads_inside_the_buffer :
  (forall lines st,
      ~ In "?" lines -> exists st', chat_io_loop lines st = Some st')
  /\ (forall input,
         input = "" \/ last_char input = LF ->
         exists st, chat_io input = Some st).
Proof.
  assert (H : forall lines,
             ~ In "?" lines ->
             (forall st, exists st', chat_io_loop lines st = Some st')
             /\ (forall user room topics message st,
                    exists st',
                      message_loop lines user room topics message st
                      = Some st')).
  { induction lines as [|raw rest IH]; intro Hno.
    - split; intros; eexists; reflexivity.
    - destruct IH as [IHc IHm]; [intro Hin; apply Hno; now right|].
      split.
      + intro st. cbn [chat_io_loop].
        destruct (is_char "+"%char _).
        { destruct (parse_add _); auto. }
        destruct (is_char "?"%char _) eqn:Hq.
        { destruct (query_words _) eqn:Hw; [auto|].
          exfalso. apply Hno. left.
          now apply lone_question_mark. }
        destruct (negb _); auto.
      + intros user room topics message st. cbn [message_loop].
        destruct (is_char "."%char _); auto. }
  split.
  - intros lines st Hno. now apply H.
  - intros input Hend. apply H. intro Hin.
    destruct Hend as [->|Hlast]; [exact Hin|].
    pose proof (read_lines_end input Hlast) as Hall.
    rewrite Forall_forall in Hall. apply Hall in Hin. discriminate Hin.
Qed.

Lemma chat_io_reads_inside_the_buffer_witness :
  exists st, chat_io (unlines ["?"; "? "; "?x"]) = Some st.
Proof.
  exact (proj2 chat_io_reads_inside_the_buffer
           (unlines ["?"; "? "; "?x"]) (or_intror eq_refl)).
Defined.

(** ** The lines of a message *)

Section Body.

Lemma cstr_line_buffer (l : string) :
  no_NUL l = true -> cstr (line_buffer l) = l.
Proof.
  unfold no_NUL, line_buffer.
  induction l as [|c l IH]; simpl; [reflexivity|].
  destruct (is_char NUL c); simpl; [discriminate|].
  intro H. now rewrite IH.
Qed.

Lemma concat_empty_cons (x : string) (xs : list string) :
  String.concat "" (x :: xs) = x ++ String.concat "" xs.
Proof.
  destruct xs as [|y ys]; simpl; [now rewrite append_nil_r | reflexivity].
Qed.

(** The inner loop appends the lines it reads, one after the other. *)
Lemma message_loop_body (user room : string) (topics : list string)
    (st : state) (tail : list string) (body : list string) :
  Forall body_line body ->
  forall message,
    message_loop (body ++ tail) user room topics message st
    = message_loop tail user room topics
        (match body with
         | [] => message
         | _ :: _ =>
             Some (match message with
                   | Some text => text
                   | None => EmptyString
                   end ++ String.concat "" body)
         end) st.
Proof.
  induction 1 as [|l ls [Hdot Hnul] Hls IH]; intro message; [reflexivity|].
  cbn [app message_loop]. rewrite Hdot, IH.
  unfold concatenate_message. rewrite (cstr_line_buffer l Hnul).
  rewrite concat_empty_cons.
  destruct ls as [|l' ls'].
  - simpl. rewrite append_nil_r. now destruct message.
  - destruct message; simpl; now rewrite ?append_assoc.
Qed.

End Body.

(** X12.  An ADD line that [parse_add] accepts, followed by one line or
    more none of which starts with a dot, and then by a line that starts
    with a dot or by the end of the input, stores in front of the list the
    message whose body is those lines put end to end, newlines included,
    and writes nothing.  With no line before the dot line or the end of the
    input it stores nothing and writes [NO_MSG]. *)
Theorem add_stores_the_lines (header user room : string)
    (topics : list string) (body rest : list string) (st : state) :
  is_char "+"%char (first_char (command_line header)) = true ->
  parse_add (command_line header) = AddHeader user room topics ->
  Forall body_line body ->
  let after :=
    match body with
    | [] => St.write_err ("NO_MSG" ++ nl) st
    | _ :: _ =>
        St.mkState
          (Msg.mkChatMsg user room topics (String.concat "" body)
             :: St.head st)
          (St.out st) (St.err st)
    end in
  (forall dot,
      is_char "."%char (first_char dot) = true ->
      chat_io_loop (header :: body ++ dot :: rest) st
      = chat_io_loop rest after)
  /\ chat_io_loop (header :: body) st = Some after.
Proof.
  intros Hplus Hparse Hbody after. split.
  - intros dot Hdot. cbn [chat_io_loop]. rewrite Hplus, Hparse.
    rewrite message_loop_body by exact Hbody.
    cbn [message_loop]. rewrite Hdot. f_equal.
    subst after. now destruct body.
  - cbn [chat_io_loop]. rewrite Hplus, Hparse.
    rewrite <- (app_nil_r body) at 1.
    rewrite message_loop_body by exact Hbody.
    cbn [message_loop]. f_equal. subst after. now destruct body.
Qed.

Lemma add_stores_the_lines_witness :
  chat_io_loop
    ["+ @u r #T" ++ nl; " two " ++ nl; "lines" ++ nl; ". done" ++ nl] St.init
  = Some (St.mkState
            [Msg.mkChatMsg "@u" "r" ["#t"]
               (" two " ++ nl ++ "lines" ++ nl)]
            EmptyString EmptyString).
Proof.
  refine (proj1 (add_stores_the_lines ("+ @u r #T" ++ nl) "@u" "r" ["#t"]
                   [" two " ++ nl; "lines" ++ nl] [] St.init
                   eq_refl eq_refl _)
            (". done" ++ nl) eq_refl).
  repeat constructor.
Defined.

(** ** The words after the topics *)

Section AfterTopics.



End AfterTopics.



(** ** The COUNT word *)

Section Count.

Lemma digit_facts (c : ascii) :
  isdigit c = true ->
  isspace c = false /\ is_char "-"%char c = false
  /\ is_char "+"%char c = false
  /\ (0 <= Z.of_N (code c) - 48)%Z.
Proof.
  destruct c as [[] [] [] [] [] [] [] []]; intro H;
    try discriminate H; repeat split; vm_compute; discriminate.
Qed.

Lemma digits_value_grows (s : string) :
  forall acc, (0 <= acc)%Z -> (acc <= digits_value s acc)%Z.
Proof.
  induction s as [|c s IH]; intros acc Hacc; cbn [digits_value]; [lia|].
  destruct (isdigit c) eqn:Hc; [|lia].
  destruct (digit_facts c Hc) as (_ & _ & _ & Hd).
  specialize (IH (10 * acc + (Z.of_N (code c) - 48))%Z). lia.
Qed.

End Count.

(** X14.  A word after the room that starts with a digit is the COUNT and
    is taken off the words: when the number its leading digits write is
    below [2^31] the count is that number, with no wrap-around, whatever
    follows the digits in the word. *)
Theorem count_is_the_number_written (token : string) (rest : list string) :
  isdigit (first_char token) = true ->
  (digits_value token 0 < 2 ^ 31)%Z ->
  parse_count (token :: rest) = inr (digits_value token 0, rest).
Proof.
  intros Hdigit Hsmall. unfold parse_count. rewrite Hdigit.
  destruct token as [|c s]; [discriminate Hdigit|].
  simpl first_char in Hdigit.
  destruct (digit_facts c Hdigit) as (Hsp & Hminus & Hplus & _).
  pose proof (digits_value_grows (String c s) 0 ltac:(lia)) as Hpos.
  assert (Hatoi : atoi (String c s) = digits_value (String c s) 0).
  { unfold atoi, strtol, signed_value. cbn [skip_space]. rewrite Hsp.
    cbn [drop]. rewrite Hminus, Hplus.
    unfold LONG_MIN, LONG_MAX, to_int.
    rewrite Z.min_r, Z.max_r by lia.
    rewrite Z.mod_small by lia. lia. }
  rewrite Hatoi. unfold to_size_t. rewrite Z.mod_small by lia.
  destruct (Z.ltb_spec (digits_value (String c s) 0) 0); [lia | reflexivity].
Qed.

Lemma count_is_the_number_written_witness :
  parse_count ["25x"; "#t"] = inr (25%Z, ["#t"]).
Proof.
  refine (count_is_the_number_written "25x" ["#t"] eq_refl _).
  vm_compute. reflexivity.
Defined.

(** ** The character a line is dispatched on *)

Section Dispatch.

Lemma get_app_right (lead x : string) :
  forall k, String.get (String.length lead + k) (lead ++ x) = String.get k x.
Proof. induction lead as [|d lead IH]; intro k; simpl; auto. Qed.

Lemma poke_app_right (ch : ascii) (lead x : string) :
  forall k, poke (String.length lead + k) ch (lead ++ x) = lead ++ poke k ch x.
Proof.
  induction lead as [|d lead IH]; intro k; simpl; [reflexivity|].
  now rewrite IH.
Qed.

Lemma drop_app_right (lead x : string) :
  drop (String.length lead) (lead ++ x) = x.
Proof. induction lead as [|d lead IH]; simpl; auto. Qed.

Lemma skip_space_app (lead : string) (c : ascii) (x : string) :
  all_chars isspace lead = true ->
  isspace c = false ->
  skip_space (lead ++ String c x) = String.length lead.
Proof.
  intros Hlead Hc. induction lead as [|d lead IH]; simpl in *.
  - now rewrite Hc.
  - apply andb_true_iff in Hlead as [Hd Hl]. rewrite Hd. now rewrite IH.
Qed.

(** The newline is taken off after the first visible character. *)
Lemma strip_newline_prefix (lead : string) (c : ascii) (rest : string) :
  is_char LF c = false ->
  exists rest', strip_newline (lead ++ String c rest)
                = lead ++ String c rest'.
Proof.
  intro Hc. unfold strip_newline, line_buffer.
  replace (String.length (lead ++ String c rest) - 1)%nat
    with (String.length lead + String.length rest)%nat
    by (rewrite length_append; simpl; lia).
  rewrite append_assoc. cbn [append].
  rewrite get_app_right.
  destruct rest as [|d rest].
  - simpl. rewrite Hc. eauto.
  - destruct (String.get _ _) as [c'|]; [|eauto].
    destruct (is_char LF c'); [|eauto].
    rewrite poke_app_right. cbn [String.length poke]. eauto.
Qed.

Lemma first_char_of_cstr (x y : string) (c : ascii) :
  cstr x = String c y -> first_char x = c.
Proof.
  destruct x as [|d x]; simpl; [discriminate|].
  destruct (is_char NUL d); [discriminate | now intros [= ->]].
Qed.

(** [chat_io] looks at the first character of the line that is not white
    space. *)
Lemma first_visible_char (lead : string) (c : ascii) (rest : string) :
  all_chars isspace lead = true ->
  isspace c = false ->
  is_char NUL c = false ->
  first_char (command_line (lead ++ String c rest)) = c.
Proof.
  intros Hlead Hsp Hnul.
  assert (Hlf : is_char LF c = false).
  { unfold is_char. destruct (Ascii.eqb_spec c LF) as [->|]; [|reflexivity].
    discriminate Hsp. }
  destruct (strip_newline_prefix lead c rest Hlf) as [rest' Hstrip].
  pose proof (strip_newline_terminated (lead ++ String c rest)) as Hterm.
  pose proof (trim_whitespace_cstr _ Hterm) as Hcstr.
  fold (command_line (lead ++ String c rest)) in Hcstr.
  rewrite Hstrip, skip_space_app, drop_app_right in Hcstr by assumption.
  cbn [cstr] in Hcstr. rewrite Hnul in Hcstr. cbn [take] in Hcstr.
  exact (first_char_of_cstr _ _ _ Hcstr).
Qed.

(** A line of white space leaves an empty C string in the buffer. *)
Lemma blank_line_first_char (raw : string) :
  all_chars isspace raw = true -> first_char (command_line raw) = NUL.
Proof.
  intro Hblank. unfold command_line, trim_whitespace.
  pose proof (strip_newline_terminated raw) as Hterm.
  set (b := strip_newline raw) in *.
  assert (Hb : all_chars isspace (cstr b) = true).
  { unfold b, strip_newline.
    assert (Hline : cstr (line_buffer raw) = raw).
    { apply cstr_line_buffer. unfold no_NUL. clear b Hterm.
      induction raw as [|c raw IH]; simpl in *; [reflexivity|].
      apply andb_true_iff in Hblank as [Hc Hr].
      now rewrite (isspace_not_NUL c Hc), IH. }
    destruct (String.get _ _) as [c|]; [|now rewrite Hline].
    destruct (is_char LF c); [|now rewrite Hline].
    rewrite cstr_poke by (unfold strlen; rewrite Hline; lia).
    rewrite Hline. clear - Hblank. generalize (String.length raw - 1)%nat.
    induction raw as [|c raw IH]; intros [|n]; simpl in *; try reflexivity.
    apply andb_true_iff in Hblank as [Hc Hr]. now rewrite Hc, IH. }
  assert (Hempty : cstr (drop (skip_space b) b) = "").
  { clear Hterm. induction b as [|c b' IH]; simpl in *; [reflexivity|].
    unfold is_char in *. destruct (Ascii.eqb_spec c NUL) as [->|Hc].
    - reflexivity.
    - simpl in Hb. apply andb_true_iff in Hb as [Hc' Hb']. rewrite Hc'.
      simpl. now apply IH. }
  rewrite Hempty. destruct b; [discriminate Hterm | reflexivity].
Qed.

End Dispatch.

(** X15.  [chat_io] dispatches a line on its first character that is not
    white space.  A line of white space only, the empty line among them, is
    answered with [BAD_COMMAND]; so is a line whose first visible character
    is not the plus sign, the question mark or the dot; a line whose first
    visible character is a dot is skipped without a word, whatever follows
    the dot.  None of them changes the store. *)
Theorem lines_that_are_no_command (raw : string) (rest : list string)
    (st : state) :
  (all_chars isspace raw = true ->
   chat_io_loop (raw :: rest) st
   = chat_io_loop rest (St.write_err ("BAD_COMMAND" ++ nl) st))
  /\ (forall lead c tail,
         raw = lead ++ String c tail ->
         all_chars isspace lead = true ->
         isspace c = false ->
         is_char NUL c = false ->
         is_char "+"%char c = false ->
         is_char "?"%char c = false ->
         chat_io_loop (raw :: rest) st
         = if is_char "."%char c then chat_io_loop rest st
           else chat_io_loop rest (St.write_err ("BAD_COMMAND" ++ nl) st)).
Proof.
  split.
  - intro Hblank. cbn [chat_io_loop].
    now rewrite (blank_line_first_char raw Hblank).
  - intros lead c tail -> Hlead Hsp Hnul Hplus Hq.
    cbn [chat_io_loop].
    rewrite (first_visible_char lead c tail Hlead Hsp Hnul), Hplus, Hq.
    now destruct (is_char "."%char c).
Qed.

Lemma lines_that_are_no_command_witness :
  chat_io_loop ["  .hidden" ++ nl; "   " ++ nl] St.init
  = chat_io_loop ["   " ++ nl] St.init.
Proof.
  exact (proj2 (lines_that_are_no_command ("  .hidden" ++ nl)
                  ["   " ++ nl] St.init)
           "  " "."%char ("hidden" ++ nl) eq_refl eq_refl eq_refl eq_refl
           eq_refl eq_refl).
Defined.
